(** * Manacher's palindrome index (src/src/string/manacher.rs)

    A shallow embedding of [Manacher::new] and of its queries.  Every
    operation that can panic in Rust (an [assert!], an out-of-bounds slice
    index, a [usize] subtraction that underflows) returns [None] here; a
    [while] loop is run with an explicit fuel bound and also returns [None]
    if the bound were ever exhausted, so [Some] means the Rust code returns
    normally. *)

From Stdlib Require Import Arith Lia List Bool Sorting.Sorted.
Import ListNotations.

(** Option bind: a panic ([None]) propagates to the caller. *)
Definition obind {A B} (m : option A) (k : A -> option B) : option B :=
  match m with Some a => k a | None => None end.

Notation "'let*' x ':=' m 'in' k" := (obind m (fun x => k))
  (at level 200, x name, m at level 100, k at level 200).

(** [usize] subtraction: panics (in debug builds) on underflow. *)
Definition csub (a b : nat) : option nat :=
  if b <=? a then Some (a - b) else None.

(** A [Range<usize>] [start..end]. *)
Definition range : Type := (nat * nat)%type.

(** The [T: Eq] bound of the generic functions. *)
Class EqDec (T : Type) := eq_dec : forall x y : T, {x = y} + {x <> y}.

#[global] Instance EqDec_nat : EqDec nat := Nat.eq_dec.

Section Manacher.

Context {T : Type} `{EqDec T}.

(** ** The transformed view ([ManacherString]) *)

(** [fn ti_to_si(ti) = (ti - 1) / 2] *)
Definition ti_to_si (ti : nat) : option nat :=
  let* x := csub ti 1 in Some (x / 2).

(** [fn si_to_ti(si) = 2 * si + 1] *)
Definition si_to_ti (si : nat) : nat := 2 * si + 1.

(** [enum ManacherValue<T> { Sep, Char(T) }] with its derived [PartialEq]. *)
Inductive ManacherValue : Type :=
| Sep : ManacherValue
| Char : T -> ManacherValue.

Definition mv_eqb (a b : ManacherValue) : bool :=
  match a, b with
  | Sep, Sep => true
  | Char x, Char y => if eq_dec x y then true else false
  | _, _ => false
  end.

(** [ManacherString::len]: [s.len() * 2 + 1]. *)
Definition t_len (s : list T) : nat := length s * 2 + 1.

(** [ManacherString::get]: [assert!(ti < self.len())], then a separator at
    even indices and [Char(s[ti_to_si(ti)])] at odd ones. *)
Definition get (s : list T) (ti : nat) : option ManacherValue :=
  if ti <? t_len s then
    if ti mod 2 =? 0 then Some Sep
    else let* si := ti_to_si ti in
         let* x := nth_error s si in
         Some (Char x)
  else None.

(** [ManacherString::is_equal]. *)
Definition is_equal (s : list T) (ti tj : nat) : option bool :=
  let* a := get s ti in
  let* b := get s tj in
  Some (mv_eqb a b).

(** ** Construction ([Manacher::new]) *)

(** The expansion loop
    [while i + delta < t_len && delta <= i && t.is_equal(i + delta, i - delta)
     { delta += 1 }].
    It returns the final [delta] together with the offsets handed to
    [is_equal], in the order they were probed. *)
Fixpoint expand (s : list T) (fuel i delta : nat) : option (nat * list nat) :=
  match fuel with
  | O => None
  | S fuel' =>
      if i + delta <? t_len s then
        if delta <=? i then
          let* i_minus := csub i delta in
          let* b := is_equal s (i + delta) i_minus in
          if b then
            let* r := expand s fuel' i (S delta) in
            Some (fst r, delta :: snd r)
          else Some (delta, [delta])
        else Some (delta, [])
      else Some (delta, [])
  end.

(** The loop-carried state of [Manacher::new]: [ans], [center], [right]. *)
Record state : Type := mkState { ans : list nat; center : nat; right : nat }.

Definition init_state : state := mkState [0] 0 0.

(** The initial value of [delta]:
    [if i >= right { 1 } else { ans[2 * center - i].min(right - i) }]. *)
Definition seed (st : state) (i : nat) : option nat :=
  if right st <=? i then Some 1
  else
    let* i_mirror := csub (2 * center st) i in
    let* am := nth_error (ans st) i_mirror in
    let* room := csub (right st) i in
    Some (Nat.min am room).

(** One iteration of [for i in 1..t_len]. *)
Definition body (s : list T) (st : state) (i : nat) : option state :=
  let* delta0 := seed st i in
  let* r := expand s (t_len s) i delta0 in
  let* radius := csub (fst r) 1 in
  let ans' := ans st ++ [radius] in
  let new_right := i + radius in
  if right st <? new_right then Some (mkState ans' i new_right)
  else Some (mkState ans' (center st) (right st)).

(** [for i in i0 .. i0 + k]. *)
Fixpoint for_loop (s : list T) (k i : nat) (st : state) : option state :=
  match k with
  | O => Some st
  | S k' => let* st' := body s st i in for_loop s k' (S i) st'
  end.

(** [Manacher::new]: the radius table ([Manacher(Vec<usize>)]). *)
Definition manacher_new (s : list T) : option (list nat) :=
  let* st := for_loop s (t_len s - 1) 1 init_state in
  Some (ans st).

(** The number of [t.is_equal] calls made by iteration [i] of
    [Manacher::new]: the length of the probe log of its expansion loop. *)
Definition body_probes (s : list T) (st : state) (i : nat) : option nat :=
  let* delta0 := seed st i in
  let* r := expand s (t_len s) i delta0 in
  Some (length (snd r)).

(** The number of [t.is_equal] calls made by [for i in i0 .. i0 + k]. *)
Fixpoint probes_total (s : list T) (k i : nat) (st : state) : option nat :=
  match k with
  | O => Some 0
  | S k' =>
      let* st' := body s st i in
      let* p := body_probes s st i in
      let* rest := probes_total s k' (S i) st' in
      Some (p + rest)
  end.

(** The number of [t.is_equal] calls made by [Manacher::new]. *)
Definition manacher_new_probes (s : list T) : option nat :=
  probes_total s (t_len s - 1) 1 init_state.

(** ** Queries *)

(** [Iterator::max] followed by [unwrap]. *)
Definition max_opt (l : list nat) : option nat :=
  match l with
  | [] => None
  | x :: xs => Some (fold_left Nat.max xs x)
  end.

(** [Manacher::max_palindrome_len]. *)
Definition max_palindrome_len (tab : list nat) : option nat := max_opt tab.

(** [Manacher::odd_longest_at]. *)
Definition odd_longest_at (tab : list nat) (si : nat) : option range :=
  let* longest_len := nth_error tab (si_to_ti si) in
  let rad := longest_len / 2 in
  let* start := csub si rad in
  Some (start, si + rad + 1).

(** [Manacher::even_longest_at]. *)
Definition even_longest_at (tab : list nat) (si next_si : nat) : option range :=
  if negb (si + 1 =? next_si) then None
  else
    let ti := si_to_ti si + 1 in
    if negb (ti <? length tab) then None
    else
      let* longest_len := nth_error tab ti in
      let rad := longest_len / 2 in
      let* start := csub next_si rad in
      Some (start, next_si + rad).

(** [Manacher::is_palindrome] over the half-open range [sl..sr]. *)
Definition is_palindrome (tab : list nat) (sl sr : nat) : option bool :=
  if sr <=? sl then Some true
  else
    let slen := sr - sl in
    let* rg :=
      if slen mod 2 =? 0 then
        let* c := csub (sl + slen / 2) 1 in
        even_longest_at tab c (c + 1)
      else odd_longest_at tab (sl + slen / 2) in
    let* d := csub (snd rg) (fst rg) in
    Some (slen <=? d).

(** [ManacherIter]: the cursor [i] and the wanted length [len]. *)
Record ManacherIter : Type := mkIter { it_i : nat; it_len : nat }.

(** [Manacher::iter_of_len] and [Manacher::iter_of_max]. *)
Definition iter_of_len (tab : list nat) (len : nat) : ManacherIter :=
  mkIter 0 len.

Definition iter_of_max (tab : list nat) : option ManacherIter :=
  let* m := max_palindrome_len tab in Some (mkIter 0 m).

(** The [while self.i < self.data.0.len()] loop of [ManacherIter::next]. *)
Fixpoint next_loop (tab : list nat) (fuel i len : nat)
  : option (option range * nat) :=
  match fuel with
  | O => None
  | S fuel' =>
      if i <? length tab then
        let* rad := nth_error tab i in
        let ti := i in
        let i' := S i in
        if (len <=? rad) && (rad mod 2 =? len mod 2) then
          let* x := csub (ti + 1) len in
          let* start_si := ti_to_si x in
          Some (Some (start_si, start_si + len), i')
        else next_loop tab fuel' i' len
      else Some (None, i)
  end.

(** [ManacherIter::next]. *)
Definition next (tab : list nat) (it : ManacherIter)
  : option (option range * ManacherIter) :=
  let* r := next_loop tab (S (length tab)) (it_i it) (it_len it) in
  Some (fst r, mkIter (snd r) (it_len it)).

(** The items produced by calling [next] until it returns [None]. *)
Fixpoint collect (tab : list nat) (fuel : nat) (it : ManacherIter)
  : option (list range) :=
  match fuel with
  | O => None
  | S fuel' =>
      let* r := next tab it in
      match fst r with
      | None => Some []
      | Some rg => let* rest := collect tab fuel' (snd r) in Some (rg :: rest)
      end
  end.

Definition collect_all (tab : list nat) (it : ManacherIter) : option (list range) :=
  collect tab (S (length tab)) it.

(** [naive_palindrome], the test oracle of the module. *)
Fixpoint naive_loop (s : list T) (fuel l r d : nat) : option bool :=
  match fuel with
  | O => None
  | S fuel' =>
      if r <=? 2 * d + 1 + l then Some true
      else
        let i := l + d in
        let* j := csub (r - 1) d in
        let* x := nth_error s i in
        let* y := nth_error s j in
        if eq_dec x y then naive_loop s fuel' l r (S d) else Some false
  end.

Definition naive_palindrome (s : list T) (l r : nat) : option bool :=
  naive_loop s (S r) l r 0.

(** ** Vocabulary of the statements

    These definitions are not part of the program; they state what the
    program is proved to compute. *)

(** The transformed sequence ["#a#b#c#"] as a total function. *)
Definition tchar (s : list T) (k : nat) : ManacherValue :=
  if k mod 2 =? 0 then Sep
  else match nth_error s ((k - 1) / 2) with Some x => Char x | None => Sep end.

(** The transformed window [[i - d, i + d]] is in bounds and mirror-symmetric. *)
Definition cert (s : list T) (i d : nat) : Prop :=
  d <= i /\ i + d < t_len s /\
  forall k, k <= d -> tchar s (i - k) = tchar s (i + k).

(** [d] is the largest such radius at [i]. *)
Definition is_rad (s : list T) (i d : nat) : Prop :=
  cert s i d /\ ~ cert s i (S d).

(** The original range [[a, b)] reads the same forwards and backwards. *)
Definition pal (s : list T) (a b : nat) : Prop :=
  forall x y, a <= x -> x < b -> a <= y -> y < b -> x + y = a + b - 1 ->
  nth_error s x = nth_error s y.

(** The two-pointer check: [s[l+d] = s[r-1-d]] whenever [l+d < r-1-d]. *)
Definition two_pointer (s : list T) (l r : nat) : Prop :=
  forall d, l + d < r - 1 - d -> nth_error s (l + d) = nth_error s (r - 1 - d).

(** The loop invariant of [Manacher::new] before iteration [i]: [ans] holds
    the maximal radius of every earlier position, and [right] is the right
    edge of the window around [center]. *)
Definition inv (s : list T) (i : nat) (st : state) : Prop :=
  length (ans st) = i /\
  (forall j, j < i -> is_rad s j (nth j (ans st) 0)) /\
  center st < i /\
  right st = center st + nth (center st) (ans st) 0.

(** The substring of length [len] starting at [a]. *)
Definition substring (s : list T) (a len : nat) : list T :=
  firstn len (skipn a s).

End Manacher.

(** The range reported by [ManacherIter::next] for transformed index [ti]. *)
Definition range_of (len ti : nat) : range :=
  ((ti + 1 - len - 1) / 2, (ti + 1 - len - 1) / 2 + len).

(** The filter of [ManacherIter::next] at transformed index [i]. *)
Definition iter_pred (tab : list nat) (len i : nat) : bool :=
  (len <=? nth i tab 0) && (nth i tab 0 mod 2 =? len mod 2).

(** "bananas" and "abracadabra", with letters coded as numbers. *)
Definition bananas : list nat := [2;1;3;1;3;1;4].
Definition abracadabra : list nat := [1;2;18;1;3;1;4;1;2;18;1].

Example ex_bananas_table :
  manacher_new bananas = Some [0;1;0;1;0;3;0;5;0;3;0;1;0;1;0].
Proof. vm_compute. reflexivity. Qed.

Example ex_bananas_queries :
  let tab := [0;1;0;1;0;3;0;5;0;3;0;1;0;1;0] in
  max_palindrome_len tab = Some 5 /\
  obind (iter_of_max tab) (collect_all tab) = Some [(1, 6)] /\
  is_palindrome tab 0 2 = Some false /\ is_palindrome tab 1 4 = Some true.
Proof. vm_compute. repeat split. Qed.

Example ex_abracadabra :
  obind (manacher_new abracadabra)
    (fun tab => obind (iter_of_max tab) (collect_all tab)) = Some [(3, 6); (5, 8)].
Proof. vm_compute. reflexivity. Qed.

(** ** Arithmetic on parities *)

Lemma mod2_even m : (2 * m) mod 2 = 0 /\ (2 * m) / 2 = m.
Proof.
  split.
  - symmetry. apply (Nat.mod_unique _ _ m); lia.
  - symmetry. apply (Nat.div_unique _ _ _ 0); lia.
Qed.

Lemma mod2_odd m : (2 * m + 1) mod 2 = 1 /\ (2 * m + 1) / 2 = m.
Proof.
  split.
  - symmetry. apply (Nat.mod_unique _ _ m); lia.
  - symmetry. apply (Nat.div_unique _ _ _ 1); lia.
Qed.

Lemma parity x : exists m, x = 2 * m \/ x = 2 * m + 1.
Proof.
  exists (x / 2). pose proof (Nat.div_mod_eq x 2).
  pose proof (Nat.mod_upper_bound x 2). lia.
Qed.

(** Rewrites [(2*m) mod 2], [(2*m+1)/2] and the like in the goal. *)
Ltac simpl_mod2 :=
  repeat match goal with
  | |- context [(2 * ?m + 1) mod 2] => rewrite (proj1 (mod2_odd m))
  | |- context [(2 * ?m + 1) / 2] => rewrite (proj2 (mod2_odd m))
  | |- context [(2 * ?m) mod 2] => rewrite (proj1 (mod2_even m))
  | |- context [(2 * ?m) / 2] => rewrite (proj2 (mod2_even m))
  end.

(** Splits a variable into [2*m] or [2*m+1]. *)
Ltac split_parity x :=
  let m := fresh "m" in
  let E := fresh "E" in
  destruct (parity x) as [m [E | E]]; subst x.

(** Decides the [nat] comparisons of the goal that [lia] can settle. *)
Ltac bool_lia :=
  repeat match goal with
  | |- context [?a <=? ?b] =>
      first [ rewrite (proj2 (Nat.leb_le a b)) by lia
            | rewrite (proj2 (Nat.leb_gt a b)) by lia ]
  | |- context [?a <? ?b] =>
      first [ rewrite (proj2 (Nat.ltb_lt a b)) by lia
            | rewrite (proj2 (Nat.ltb_ge a b)) by lia ]
  | |- context [?a =? ?b] =>
      first [ rewrite (proj2 (Nat.eqb_eq a b)) by lia
            | rewrite (proj2 (Nat.eqb_neq a b)) by lia ]
  end.

Section Proofs.

Context {T : Type} `{EqDec T}.
Implicit Types (s : list T).

(** ** The transformed view *)

Lemma tchar_even s m : tchar s (2 * m) = Sep.
Proof. unfold tchar. simpl_mod2. reflexivity. Qed.

Lemma tchar_odd s m :
  tchar s (2 * m + 1) =
  match nth_error s m with Some x => Char x | None => Sep end.
Proof.
  unfold tchar. replace (2 * m + 1 - 1) with (2 * m) by lia.
  simpl_mod2. reflexivity.
Qed.

Lemma get_tchar s k : k < t_len s -> get s k = Some (tchar s k).
Proof.
  intro Hk. unfold get. rewrite (proj2 (Nat.ltb_lt _ _) Hk).
  unfold t_len in Hk. split_parity k.
  - rewrite tchar_even. simpl_mod2. reflexivity.
  - rewrite tchar_odd. simpl_mod2. cbn [Nat.eqb].
    unfold ti_to_si, csub. rewrite (proj2 (Nat.leb_le 1 (2 * m + 1)) ltac:(lia)).
    cbn [obind]. replace (2 * m + 1 - 1) with (2 * m) by lia. simpl_mod2.
    destruct (nth_error s m) eqn:E; [reflexivity|].
    apply nth_error_None in E. lia.
Qed.

Lemma mv_eqb_true a b : mv_eqb a b = true <-> a = b.
Proof.
  destruct a as [|x], b as [|y]; simpl; split; intro E; try congruence.
  - destruct (eq_dec x y); congruence.
  - inversion E. destruct (eq_dec y y); congruence.
Qed.

Lemma is_equal_tchar s a b :
  a < t_len s -> b < t_len s ->
  is_equal s a b = Some (mv_eqb (tchar s a) (tchar s b)).
Proof.
  intros Ha Hb. unfold is_equal. rewrite (get_tchar s a Ha), (get_tchar s b Hb).
  reflexivity.
Qed.

(** ** Mirror windows *)

Lemma cert_le s i d d' : cert s i d -> d' <= d -> cert s i d'.
Proof.
  intros (H1 & H2 & H3) Hle. repeat split; try lia.
  intros k Hk. apply H3. lia.
Qed.

Lemma is_rad_unique s i d1 d2 : is_rad s i d1 -> is_rad s i d2 -> d1 = d2.
Proof.
  intros [C1 N1] [C2 N2].
  destruct (Nat.lt_total d1 d2) as [Hlt | [Heq | Hlt]]; auto.
  - exfalso. apply N1. apply (cert_le _ _ _ _ C2). lia.
  - exfalso. apply N2. apply (cert_le _ _ _ _ C1). lia.
Qed.

Lemma cert_zero s i : i < t_len s -> cert s i 0.
Proof.
  intro Hi. repeat split; try lia.
  intros k Hk. replace k with 0 by lia. f_equal. lia.
Qed.

(** The window of [c] is symmetric about [c]: a point reflection. *)
Lemma cert_reflect s c d p :
  cert s c d -> c - d <= p -> p <= c + d -> tchar s p = tchar s (2 * c - p).
Proof.
  intros (H1 & H2 & H3) Hl Hr.
  destruct (Nat.le_gt_cases p c).
  - specialize (H3 (c - p) ltac:(lia)).
    replace (c - (c - p)) with p in H3 by lia.
    rewrite H3. f_equal. lia.
  - specialize (H3 (p - c) ltac:(lia)).
    replace (c + (p - c)) with p in H3 by lia.
    rewrite <- H3. f_equal. lia.
Qed.

(** ** The expansion loop *)

Lemma expand_ok s fuel i delta :
  i < t_len s -> t_len s - (i + delta) < fuel ->
  (forall k, k < delta -> cert s i k) ->
  exists d ps, expand s fuel i delta = Some (d, ps) /\ delta <= d /\ 1 <= d /\
    is_rad s i (d - 1) /\ ps = seq delta (length ps).
Proof.
  revert delta. induction fuel as [|fuel IH]; intros delta Hi Hf Hc; [lia|].
  cbn [expand].
  destruct (i + delta <? t_len s) eqn:E1.
  - apply Nat.ltb_lt in E1.
    destruct (delta <=? i) eqn:E2.
    + apply Nat.leb_le in E2.
      unfold csub. rewrite (proj2 (Nat.leb_le _ _) E2). cbn [obind].
      rewrite is_equal_tchar by lia. cbn [obind].
      destruct (mv_eqb (tchar s (i + delta)) (tchar s (i - delta))) eqn:E3.
      * apply mv_eqb_true in E3.
        destruct (IH (S delta)) as (d & ps & Hex & Hle & H1 & Hr & Hps); auto.
        { lia. }
        { intros k Hk. destruct (Nat.eq_dec k delta) as [->|Hne].
          - repeat split; try lia. intros k' Hk'.
            destruct (Nat.eq_dec k' delta) as [->|Hne']; [congruence|].
            destruct (Hc (pred delta) ltac:(lia)) as (_ & _ & Hc').
            apply Hc'. lia.
          - apply Hc. lia. }
        rewrite Hex. cbn [obind fst snd].
        exists d, (delta :: ps). split; [reflexivity|].
        split; [lia|]. split; [lia|]. split; [exact Hr|].
        cbn [length seq]. f_equal. exact Hps.
      * assert (Hd : 1 <= delta).
        { destruct delta; [|lia]. rewrite Nat.add_0_r, Nat.sub_0_r in E3.
          destruct (tchar s i) as [|x]; cbn in E3; [discriminate|].
          destruct (eq_dec x x); congruence. }
        exists delta, [delta]. split; [reflexivity|].
        split; [lia|]. split; [lia|]. split; [|reflexivity]. split.
        -- apply Hc. lia.
        -- intros (_ & _ & Hc').
           specialize (Hc' delta ltac:(lia)).
           replace (S (delta - 1)) with delta in Hc' by lia.
           rewrite Hc' in E3.
           destruct (tchar s (i + delta)) as [|x]; cbn in E3; [discriminate|].
           destruct (eq_dec x x); congruence.
    + apply Nat.leb_gt in E2.
      exists delta, []. split; [reflexivity|].
      split; [lia|]. split; [lia|]. split; [|reflexivity]. split.
      * apply Hc. lia.
      * intros (Hle & _). lia.
  - apply Nat.ltb_ge in E1.
    exists delta, []. split; [reflexivity|].
    split; [lia|]. split; [lia|]. split; [|reflexivity]. split.
    * apply Hc. lia.
    * intros (_ & Hlt & _). lia.
Qed.

(** ** The seed of the expansion *)

Lemma seed_ok s st i :
  inv s i st -> i < t_len s ->
  exists d0, seed st i = Some d0 /\
    (forall k, k < d0 -> cert s i k) /\
    (right st <= i -> d0 = 1) /\
    (i < right st ->
       d0 = Nat.min (nth (2 * center st - i) (ans st) 0) (right st - i) /\
       cert s i d0).
Proof.
  intros (Hlen & Hrad & Hc & Hr) Hi. unfold seed.
  destruct (right st <=? i) eqn:E.
  - apply Nat.leb_le in E. exists 1. split; [reflexivity|].
    split; [|split; [auto | intro; lia]].
    intros k Hk. replace k with 0 by lia. apply cert_zero. exact Hi.
  - apply Nat.leb_gt in E.
    set (c := center st) in *. set (R := right st) in *.
    set (rc := nth c (ans st) 0) in *.
    destruct (Hrad c Hc) as [Cc _].
    pose proof Cc as (Hrc1 & Hrc2 & _).
    set (m := 2 * c - i).
    assert (Hm : m < i) by lia.
    unfold csub. rewrite (proj2 (Nat.leb_le i (2 * c)) ltac:(lia)).
    cbn [obind]. fold m.
    rewrite (nth_error_nth' (ans st) (n := m) 0 ltac:(lia)). cbn [obind].
    rewrite (proj2 (Nat.leb_le i R) ltac:(lia)). cbn [obind].
    set (am := nth m (ans st) 0).
    destruct (Hrad m Hm) as [Cm _]. pose proof Cm as (Hm1 & _ & Hm3).
    assert (Ci : cert s i (Nat.min am (R - i))).
    { split; [lia|]. split; [lia|].
      intros k Hk.
      rewrite (cert_reflect s c rc (i + k) Cc) by lia.
      replace (2 * c - (i + k)) with (m - k) by lia.
      rewrite (Hm3 k ltac:(lia)).
      rewrite (cert_reflect s c rc (m + k) Cc) by lia.
      f_equal. lia. }
    exists (Nat.min am (R - i)). split; [reflexivity|].
    split; [intros k Hk; apply (cert_le _ _ _ _ Ci); lia|].
    split; [intro; lia|]. intros _. split; [reflexivity | exact Ci].
Qed.

(** ** One iteration, the loop, and the table *)

Lemma body_ok s st i :
  inv s i st -> 1 <= i -> i < t_len s ->
  exists st', body s st i = Some st' /\ inv s (S i) st'.
Proof.
  intros Hinv H1 Hi.
  destruct (seed_ok s st i Hinv Hi) as (d0 & Hs & Hc0 & _ & _).
  destruct (expand_ok s (t_len s) i d0 Hi ltac:(lia) Hc0)
    as (d & ps & He & _ & Hd & Hrad & _).
  destruct Hinv as (Hlen & Hprev & Hc & Hr).
  unfold body. rewrite Hs. cbn [obind]. rewrite He. cbn [obind fst].
  unfold csub. rewrite (proj2 (Nat.leb_le 1 d) Hd). cbn [obind].
  assert (Hnth : forall j, j < i -> nth j (ans st ++ [d - 1]) 0 = nth j (ans st) 0).
  { intros j Hj. apply app_nth1. lia. }
  assert (Hlast : nth i (ans st ++ [d - 1]) 0 = d - 1).
  { rewrite app_nth2 by lia. rewrite Hlen, Nat.sub_diag. reflexivity. }
  assert (Hall : forall j, j < S i -> is_rad s j (nth j (ans st ++ [d - 1]) 0)).
  { intros j Hj. destruct (Nat.eq_dec j i) as [->|Hne].
    - rewrite Hlast. exact Hrad.
    - rewrite Hnth by lia. apply Hprev. lia. }
  assert (Hlen' : length (ans st ++ [d - 1]) = S i).
  { rewrite length_app, Hlen. cbn. lia. }
  destruct (right st <? i + (d - 1)) eqn:E.
  - eexists. split; [reflexivity|].
    split; [exact Hlen'|]. split; [exact Hall|]. cbn [center right ans].
    split; [lia|]. rewrite Hlast. reflexivity.
  - eexists. split; [reflexivity|].
    split; [exact Hlen'|]. split; [exact Hall|]. cbn [center right ans].
    split; [lia|]. rewrite Hnth by lia. exact Hr.
Qed.

Lemma for_loop_ok s k i st :
  inv s i st -> 1 <= i -> i + k <= t_len s ->
  exists st', for_loop s k i st = Some st' /\ inv s (i + k) st'.
Proof.
  revert i st. induction k as [|k IH]; intros i st Hinv H1 Hk.
  - exists st. rewrite Nat.add_0_r. split; [reflexivity | exact Hinv].
  - destruct (body_ok s st i Hinv H1 ltac:(lia)) as (st1 & Hb & Hinv1).
    cbn [for_loop]. rewrite Hb. cbn [obind].
    destruct (IH (S i) st1 Hinv1 ltac:(lia) ltac:(lia)) as (st' & Hf & Hinv').
    exists st'. split; [exact Hf|]. replace (i + S k) with (S i + k) by lia.
    exact Hinv'.
Qed.

Lemma inv_init s : inv s 1 init_state.
Proof.
  split; [reflexivity|]. split; [|split; cbn; lia].
  intros j Hj. replace j with 0 by lia. cbn.
  split.
  - apply cert_zero. unfold t_len. lia.
  - intros (Hle & _). lia.
Qed.

(** The table built by [Manacher::new] holds the maximal radius of every
    transformed position. *)
Lemma manacher_new_ok s :
  exists tab, manacher_new s = Some tab /\ length tab = t_len s /\
    forall j, j < t_len s -> is_rad s j (nth j tab 0).
Proof.
  destruct (for_loop_ok s (t_len s - 1) 1 init_state (inv_init s) ltac:(lia))
    as (st & Hf & (Hlen & Hrad & _)).
  { unfold t_len. lia. }
  unfold manacher_new. rewrite Hf. cbn [obind].
  exists (ans st). split; [reflexivity|].
  replace (1 + (t_len s - 1)) with (t_len s) in * by (unfold t_len; lia).
  split; assumption.
Qed.

(** ** Counting comparisons *)

Lemma expand_probe_count s fuel i delta d ps :
  expand s fuel i delta = Some (d, ps) -> delta <= d /\ length ps <= d - delta + 1.
Proof.
  revert delta d ps. induction fuel as [|fuel IH]; intros delta d ps He;
    cbn [expand] in He; [discriminate|].
  destruct (i + delta <? t_len s);
    [|injection He as <- <-; cbn [length]; lia].
  destruct (delta <=? i); [|injection He as <- <-; cbn [length]; lia].
  destruct (csub i delta) as [im|]; cbn [obind] in He; [|discriminate].
  destruct (is_equal s (i + delta) im) as [b|]; cbn [obind] in He; [|discriminate].
  destruct b.
  - destruct (expand s fuel i (S delta)) as [[d' ps']|] eqn:E;
      cbn [obind fst snd] in He; [|discriminate].
    injection He as <- <-. apply IH in E. cbn [length]. lia.
  - injection He as <- <-. cbn [length]. lia.
Qed.

(** When the mirror radius lies strictly inside the window, the radius at
    [i] is the mirror radius. *)
Lemma seed_exact s st i :
  inv s i st -> i < t_len s -> i < right st ->
  nth (2 * center st - i) (ans st) 0 < right st - i ->
  is_rad s i (nth (2 * center st - i) (ans st) 0).
Proof.
  intros Hinv Hi Hlt Ham.
  destruct (seed_ok s st i Hinv Hi) as (d0 & _ & _ & _ & Hin).
  destruct (Hin Hlt) as [Hd0 C0].
  destruct Hinv as (Hlen & Hrad & Hc & Hr).
  set (c := center st) in *. set (R := right st) in *.
  set (rc := nth c (ans st) 0) in *.
  set (m := 2 * c - i) in *. set (am := nth m (ans st) 0) in *.
  destruct (Hrad c Hc) as [Cc _]. pose proof Cc as (Hrc1 & Hrc2 & _).
  destruct (Hrad m ltac:(lia)) as [Cm Nm]. pose proof Cm as (Hm1 & Hm2 & Hm3).
  split.
  - apply (cert_le _ _ _ _ C0). lia.
  - intros (_ & _ & Hk). apply Nm. split; [lia|]. split; [lia|].
    intros k Hk'. destruct (Nat.eq_dec k (S am)) as [->|Hne]; [|apply Hm3; lia].
    specialize (Hk (S am) ltac:(lia)).
    rewrite (cert_reflect s c rc (i - S am) Cc) in Hk by lia.
    rewrite (cert_reflect s c rc (i + S am) Cc) in Hk by lia.
    replace (2 * c - (i - S am)) with (m + S am) in Hk by lia.
    replace (2 * c - (i + S am)) with (m - S am) in Hk by lia.
    symmetry. exact Hk.
Qed.

(** One iteration makes at most two comparisons more than it advances
    [right]. *)
Lemma body_probes_ok s st i :
  inv s i st -> 1 <= i -> i < t_len s ->
  exists st1 p, body s st i = Some st1 /\ body_probes s st i = Some p /\
    inv s (S i) st1 /\ right st <= right st1 /\ p <= 2 + (right st1 - right st).
Proof.
  intros Hinv H1 Hi.
  destruct (body_ok s st i Hinv H1 Hi) as (st1 & Hb & Hinv1).
  destruct (seed_ok s st i Hinv Hi) as (d0 & Hs & Hc0 & Hout & Hin).
  destruct (expand_ok s (t_len s) i d0 Hi ltac:(lia) Hc0)
    as (d & ps & He & Hle & Hd & Hrad & _).
  destruct (expand_probe_count _ _ _ _ _ _ He) as [_ Hcount].
  assert (Hp : body_probes s st i = Some (length ps)).
  { unfold body_probes. rewrite Hs. cbn [obind]. rewrite He. reflexivity. }
  assert (Hright : right st1 = Nat.max (right st) (i + (d - 1))).
  { unfold body in Hb. rewrite Hs in Hb. cbn [obind] in Hb. rewrite He in Hb.
    cbn [obind fst] in Hb. unfold csub in Hb.
    rewrite (proj2 (Nat.leb_le 1 d) Hd) in Hb. cbn [obind] in Hb.
    destruct (right st <? i + (d - 1)) eqn:E; injection Hb as <-; cbn [right].
    - apply Nat.ltb_lt in E. lia.
    - apply Nat.ltb_ge in E. lia. }
  exists st1, (length ps). split; [exact Hb|]. split; [exact Hp|].
  split; [exact Hinv1|]. rewrite Hright. split; [lia|].
  destruct (Nat.le_gt_cases (right st) i) as [Hout' | Hin'].
  - rewrite (Hout Hout') in Hcount. lia.
  - destruct (Hin Hin') as [Hd0 C0].
    assert (Hge : d0 <= d - 1).
    { destruct (Nat.le_gt_cases d0 (d - 1)) as [|Hgt]; [assumption|].
      exfalso. apply (proj2 Hrad). apply (cert_le _ _ _ _ C0). lia. }
    destruct (Nat.lt_ge_cases (nth (2 * center st - i) (ans st) 0) (right st - i))
      as [Ham | Ham].
    + pose proof (seed_exact s st i Hinv Hi Hin' Ham) as Hex.
      pose proof (is_rad_unique _ _ _ _ Hrad Hex). lia.
    + lia.
Qed.

Lemma probes_total_ok s k i st :
  inv s i st -> 1 <= i -> i + k <= t_len s ->
  exists p st', probes_total s k i st = Some p /\ for_loop s k i st = Some st' /\
    inv s (i + k) st' /\ p + right st <= 2 * k + right st'.
Proof.
  revert i st. induction k as [|k IH]; intros i st Hinv H1 Hk.
  - exists 0, st. rewrite Nat.add_0_r. split; [reflexivity|].
    split; [reflexivity|]. split; [exact Hinv | lia].
  - destruct (body_probes_ok s st i Hinv H1 ltac:(lia))
      as (st1 & p1 & Hb & Hp1 & Hinv1 & Hmono & Hbound).
    destruct (IH (S i) st1 Hinv1 ltac:(lia) ltac:(lia))
      as (p2 & st' & Hp2 & Hf & Hinv' & Hb2).
    exists (p1 + p2), st'. cbn [probes_total for_loop].
    rewrite Hb. cbn [obind]. rewrite Hp1. cbn [obind]. rewrite Hp2, Hf.
    split; [reflexivity|]. split; [reflexivity|].
    split; [replace (i + S k) with (S i + k) by lia; exact Hinv'|]. lia.
Qed.

(** ** Maximal radii, parities and original ranges *)

Lemma is_rad_parity s i d : is_rad s i d -> exists m, i + d = 2 * m.
Proof.
  intros [C N]. destruct (parity (i + d)) as [m [E | E]]; [eauto|].
  exfalso. apply N. destruct C as (Hd & Hb & Hk).
  unfold cert, t_len in *. split; [lia|]. split; [lia|].
  intros k Hk'. destruct (Nat.eq_dec k (S d)) as [->|Hne]; [|apply Hk; lia].
  replace (i - S d) with (2 * (m - d)) by lia.
  replace (i + S d) with (2 * (m + 1)) by lia.
  rewrite !tchar_even. reflexivity.
Qed.

Lemma tchar_odd_inj s x y :
  x < length s -> y < length s -> tchar s (2 * x + 1) = tchar s (2 * y + 1) ->
  nth_error s x = nth_error s y.
Proof.
  intros Hx Hy E. rewrite !tchar_odd in E.
  destruct (nth_error s x) eqn:Ex; [|apply nth_error_None in Ex; lia].
  destruct (nth_error s y) eqn:Ey; [|apply nth_error_None in Ey; lia].
  congruence.
Qed.

(** A window of the transformed view centred at [a + b] with radius [b - a]
    is symmetric exactly when the original range [[a, b)] is a palindrome. *)
Lemma cert_pal s a b :
  a <= b -> b <= length s -> (cert s (a + b) (b - a) <-> pal s a b).
Proof.
  intros Hab Hb. split.
  - intros (_ & _ & Hk) x y Hx Hx' Hy' Hy Hxy.
    destruct (Nat.le_gt_cases x y).
    + specialize (Hk (y - x) ltac:(lia)).
      replace (a + b - (y - x)) with (2 * x + 1) in Hk by lia.
      replace (a + b + (y - x)) with (2 * y + 1) in Hk by lia.
      apply tchar_odd_inj; auto; lia.
    + specialize (Hk (x - y) ltac:(lia)).
      replace (a + b - (x - y)) with (2 * y + 1) in Hk by lia.
      replace (a + b + (x - y)) with (2 * x + 1) in Hk by lia.
      symmetry. apply tchar_odd_inj; auto; lia.
  - intros P. unfold cert, t_len. split; [lia|]. split; [lia|].
    intros k Hk. destruct (parity (a + b - k)) as [m [E | E]]; rewrite E.
    + replace (a + b + k) with (2 * (m + k)) by lia.
      rewrite !tchar_even. reflexivity.
    + replace (a + b + k) with (2 * (m + k) + 1) by lia.
      rewrite !tchar_odd. rewrite (P m (m + k)) by lia. reflexivity.
Qed.

(** ** Lists of indices *)

Lemma mod2_same a b : a mod 2 = b mod 2 -> exists k, a + b = 2 * k.
Proof.
  intro E. pose proof (Nat.div_mod_eq a 2). pose proof (Nat.div_mod_eq b 2).
  exists (a / 2 + b / 2 + b mod 2). lia.
Qed.

Lemma filter_seq_cons (p : nat -> bool) i m j rest :
  filter p (seq i m) = j :: rest ->
  i <= j /\ j < i + m /\ p j = true /\
  (forall j', i <= j' -> j' < j -> p j' = false) /\
  rest = filter p (seq (S j) (i + m - S j)).
Proof.
  revert i. induction m as [|m IH]; intros i F; [discriminate|].
  cbn [seq filter] in F. destruct (p i) eqn:Pi.
  - injection F as <- <-. split; [lia|]. split; [lia|]. split; [exact Pi|].
    split; [intros; lia|]. replace (i + S m - S i) with m by lia. reflexivity.
  - destruct (IH (S i) F) as (H1 & H2 & H3 & H4 & H5).
    split; [lia|]. split; [lia|]. split; [exact H3|]. split.
    + intros j' Hj' Hj. destruct (Nat.eq_dec j' i) as [->|Hne]; [exact Pi|].
      apply H4; lia.
    + rewrite H5. replace (S i + m - S j) with (i + S m - S j) by lia.
      reflexivity.
Qed.

Lemma filter_seq_sorted (p : nat -> bool) i m :
  StronglySorted lt (filter p (seq i m)).
Proof.
  revert i. induction m as [|m IH]; intro i; cbn [seq filter]; [constructor|].
  destruct (p i); [|apply IH].
  constructor; [apply IH|]. apply Forall_forall. intros x Hx.
  apply filter_In in Hx as [Hx _]. apply in_seq in Hx. lia.
Qed.

Lemma sorted_map_mono (f : nat -> nat) l :
  (forall x y, x < y -> f x <= f y) -> StronglySorted lt l ->
  Sorted le (map f l).
Proof.
  intros Hf Hl. apply StronglySorted_Sorted.
  induction Hl as [|a l Hl IH Ha]; cbn [map]; constructor; [exact IH|].
  apply Forall_forall. intros y Hy. apply in_map_iff in Hy as (x & <- & Hx).
  apply Hf. rewrite Forall_forall in Ha. auto.
Qed.

(** [range_of] for a centre [ti] of the same parity as [len]. *)
Lemma range_of_centre len ti k :
  ti = len + 2 * k -> range_of len ti = (k, k + len).
Proof.
  intros ->. unfold range_of.
  replace (len + 2 * k + 1 - len - 1) with (2 * k) by lia. simpl_mod2.
  reflexivity.
Qed.

Lemma fold_max_spec xs x :
  In (fold_left Nat.max xs x) (x :: xs) /\
  forall y, In y (x :: xs) -> y <= fold_left Nat.max xs x.
Proof.
  revert x. induction xs as [|z xs IH]; intro x; cbn [fold_left].
  - split; [left; reflexivity|]. intros y [<-|[]]. lia.
  - destruct (IH (Nat.max x z)) as [Hin Hub]. split.
    + destruct Hin as [Hm|Hin]; [|right; right; exact Hin].
      rewrite <- Hm. destruct (Nat.max_spec x z) as [[_ ->]|[_ ->]];
        [right; left | left]; reflexivity.
    + intros y [<-|[<-|Hy]].
      * specialize (Hub (Nat.max x z) (or_introl eq_refl)). lia.
      * specialize (Hub (Nat.max x z) (or_introl eq_refl)). lia.
      * apply Hub. right. exact Hy.
Qed.

Lemma max_opt_spec l :
  l <> [] -> exists m, max_opt l = Some m /\ In m l /\ forall y, In y l -> y <= m.
Proof.
  destruct l as [|x xs]; [congruence|]. intros _.
  exists (fold_left Nat.max xs x). split; [reflexivity|]. apply fold_max_spec.
Qed.

Lemma sum_even_mod a b m : a + b = 2 * m -> a mod 2 = b mod 2.
Proof.
  intro E. split_parity a; split_parity b; simpl_mod2; auto; lia.
Qed.

(** The separators [0, 2, ..., 2m] of a window, as empty ranges. *)
Lemma even_positions a m :
  map (range_of 0) (filter (fun i => i mod 2 =? 0) (seq (2 * a) (2 * m + 1))) =
  map (fun k => (k, k)) (seq a (S m)).
Proof.
  revert a. induction m as [|m IH]; intro a.
  - replace (2 * 0 + 1) with 1 by lia.
    cbn [seq filter]. simpl_mod2. cbn [Nat.eqb map].
    rewrite (range_of_centre 0 (2 * a) a) by lia. rewrite Nat.add_0_r. reflexivity.
  - replace (2 * S m + 1) with (S (S (2 * m + 1))) by lia.
    cbn [seq filter]. simpl_mod2. cbn [Nat.eqb].
    replace (S (2 * a)) with (2 * a + 1) by lia. simpl_mod2. cbn [Nat.eqb].
    replace (S (2 * a + 1)) with (2 * S a) by lia.
    cbn [map]. rewrite IH.
    rewrite (range_of_centre 0 (2 * a) a) by lia. rewrite Nat.add_0_r.
    reflexivity.
Qed.

(** ** The brute-force checks *)

Lemma naive_loop_ok s fuel l r d :
  r <= length s -> r - d < fuel ->
  exists b, naive_loop s fuel l r d = Some b /\
    (b = true <-> forall d', d <= d' -> 2 * d' + 1 + l < r ->
                  nth_error s (l + d') = nth_error s (r - 1 - d')).
Proof.
  revert d. induction fuel as [|fuel IH]; intros d Hr Hf; [lia|].
  cbn [naive_loop]. destruct (r <=? 2 * d + 1 + l) eqn:E.
  - apply Nat.leb_le in E. exists true. split; [reflexivity|].
    split; [intros _ d' Hd' Hlt; lia | reflexivity].
  - apply Nat.leb_gt in E. unfold csub. bool_lia. cbn [obind].
    destruct (nth_error s (l + d)) as [x|] eqn:Ex;
      [|apply nth_error_None in Ex; lia].
    cbn [obind].
    destruct (nth_error s (r - 1 - d)) as [y|] eqn:Ey;
      [|apply nth_error_None in Ey; lia].
    cbn [obind]. destruct (eq_dec x y) as [<-|Hne].
    + destruct (IH (S d) Hr ltac:(lia)) as (b & Hb & Hiff).
      exists b. split; [exact Hb|]. rewrite Hiff. split.
      * intros Hall d' Hd' Hlt. destruct (Nat.eq_dec d' d) as [->|Hne].
        -- congruence.
        -- apply Hall; lia.
      * intros Hall d' Hd' Hlt. apply Hall; lia.
    + exists false. split; [reflexivity|]. split; [discriminate|].
      intros Hall. exfalso. apply Hne.
      specialize (Hall d ltac:(lia) E). congruence.
Qed.

Lemma naive_palindrome_ok s l r :
  r <= length s ->
  exists b, naive_palindrome s l r = Some b /\ (b = true <-> two_pointer s l r).
Proof.
  intro Hr. destruct (naive_loop_ok s (S r) l r 0 Hr ltac:(lia)) as (b & Hb & Hiff).
  exists b. split; [exact Hb|]. rewrite Hiff. unfold two_pointer. split.
  - intros Hall d Hd. apply Hall; lia.
  - intros Hall d _ Hd. apply Hall. lia.
Qed.

Lemma pal_two_pointer s l r : l <= r -> (pal s l r <-> two_pointer s l r).
Proof.
  intro Hlr. split.
  - intros P d Hd. apply P; lia.
  - intros TP x y Hx Hx' Hy Hy' Hxy.
    destruct (Nat.lt_total x y) as [Hlt | [-> | Hlt]].
    + specialize (TP (x - l) ltac:(lia)).
      replace (l + (x - l)) with x in TP by lia.
      replace (r - 1 - (x - l)) with y in TP by lia. exact TP.
    + reflexivity.
    + specialize (TP (y - l) ltac:(lia)).
      replace (l + (y - l)) with y in TP by lia.
      replace (r - 1 - (y - l)) with x in TP by lia. symmetry. exact TP.
Qed.

(** A substring equals its reverse exactly when it is a palindrome. *)
Lemma substring_rev_pal s a len :
  a + len <= length s ->
  (substring s a len = rev (substring s a len) <-> pal s a (a + len)).
Proof.
  intro Ha. unfold substring.
  assert (Hl : length (firstn len (skipn a s)) = len).
  { rewrite length_firstn, length_skipn. lia. }
  assert (Hn : forall k, nth_error (firstn len (skipn a s)) k =
                         if k <? len then nth_error s (a + k) else None).
  { intro k. rewrite nth_error_firstn, nth_error_skipn. reflexivity. }
  split.
  - intros E x y Hx Hx' Hy Hy' Hxy.
    assert (E' := f_equal (fun w => nth_error w (x - a)) E). cbn beta in E'.
    rewrite nth_error_rev, Hl, !Hn in E'.
    rewrite (proj2 (Nat.ltb_lt (x - a) len)) in E' by lia.
    rewrite (proj2 (Nat.ltb_lt (len - S (x - a)) len)) in E' by lia.
    replace (a + (x - a)) with x in E' by lia.
    replace (a + (len - S (x - a))) with y in E' by lia. exact E'.
  - intros P. apply nth_error_ext. intro k.
    rewrite nth_error_rev, Hl, !Hn.
    destruct (k <? len) eqn:Ek; [|reflexivity].
    apply Nat.ltb_lt in Ek. bool_lia. apply P; lia.
Qed.

Section Table.

Variable s : list T.
Variable tab : list nat.
Hypothesis Htab : forall j, j < t_len s -> is_rad s j (nth j tab 0).

(** A range [[a, b)] is a palindrome iff the radius at its centre [a + b]
    covers its length. *)
Lemma table_pal a b :
  a <= b -> b <= length s -> (pal s a b <-> b - a <= nth (a + b) tab 0).
Proof.
  intros Hab Hb. rewrite <- cert_pal by assumption.
  destruct (Htab (a + b) ltac:(unfold t_len; lia)) as [C N].
  split.
  - intro Cw. destruct (Nat.le_gt_cases (b - a) (nth (a + b) tab 0)); auto.
    exfalso. apply N. apply (cert_le _ _ _ _ Cw). lia.
  - intro Hle. apply (cert_le _ _ _ _ C). exact Hle.
Qed.

Lemma table_parity j : j < t_len s -> exists m, j + nth j tab 0 = 2 * m.
Proof. intro Hj. apply (is_rad_parity s j). auto. Qed.

Lemma table_bound j : j < t_len s ->
  nth j tab 0 <= j /\ j + nth j tab 0 <= 2 * length s.
Proof.
  intro Hj. destruct (Htab j Hj) as ((H1 & H2 & _) & _).
  unfold t_len in H2. lia.
Qed.

(** Every entry of the table is the length of a palindromic range centred
    at its index. *)
Lemma table_window j : j < t_len s ->
  exists a b, a + b = j /\ b - a = nth j tab 0 /\ a <= b /\ b <= length s /\
    pal s a b.
Proof.
  intro Hj. destruct (table_parity j Hj) as [m Hm].
  pose proof (table_bound j Hj) as [B1 B2].
  exists (m - nth j tab 0), m.
  split; [lia|]. split; [lia|]. split; [lia|]. split; [lia|].
  apply (proj2 (table_pal (m - nth j tab 0) m ltac:(lia) ltac:(lia))).
  replace (m - nth j tab 0 + m) with j by lia. lia.
Qed.

Hypothesis Hlen : length tab = t_len s.

Lemma nth_error_tab j : j < t_len s -> nth_error tab j = Some (nth j tab 0).
Proof. intro Hj. apply nth_error_nth'. lia. Qed.

(** [odd_longest_at] halves an odd radius. *)
Lemma odd_longest_at_ok si : si < length s ->
  exists q, nth (2 * si + 1) tab 0 = 2 * q + 1 /\ q <= si /\
    odd_longest_at tab si = Some (si - q, si + q + 1).
Proof.
  intro Hsi. assert (Hj : 2 * si + 1 < t_len s) by (unfold t_len; lia).
  destruct (table_parity _ Hj) as [m Hm].
  pose proof (table_bound _ Hj) as [B _].
  exists (m - si - 1). split; [lia|]. split; [lia|].
  unfold odd_longest_at, si_to_ti. rewrite (nth_error_tab _ Hj). cbn [obind].
  replace (nth (2 * si + 1) tab 0) with (2 * (m - si - 1) + 1) by lia.
  simpl_mod2. unfold csub. bool_lia. reflexivity.
Qed.

(** [even_longest_at] halves an even radius. *)
Lemma even_longest_at_ok si : si + 1 <= length s ->
  exists q, nth (2 * si + 2) tab 0 = 2 * q /\ q <= si + 1 /\
    even_longest_at tab si (si + 1) = Some (si + 1 - q, si + 1 + q).
Proof.
  intro Hsi. assert (Hj : 2 * si + 2 < t_len s) by (unfold t_len; lia).
  destruct (table_parity _ Hj) as [m Hm].
  pose proof (table_bound _ Hj) as [B _].
  exists (m - si - 1). split; [lia|]. split; [lia|].
  unfold even_longest_at, si_to_ti. bool_lia. cbn [negb].
  replace (2 * si + 1 + 1) with (2 * si + 2) by lia.
  rewrite (nth_error_tab _ Hj). cbn [obind].
  replace (nth (2 * si + 2) tab 0) with (2 * (m - si - 1)) by lia.
  simpl_mod2. unfold csub. bool_lia. reflexivity.
Qed.

(** [is_palindrome] compares the radius at the centre [l + r] with the
    length of the range. *)
Lemma is_palindrome_ok l r : l < r -> r <= length s ->
  is_palindrome tab l r = Some (r - l <=? nth (l + r) tab 0).
Proof.
  intros Hlr Hr. unfold is_palindrome. bool_lia.
  destruct (parity (r - l)) as [h [E | E]]; rewrite E.
  - simpl_mod2. cbn [Nat.eqb]. unfold csub at 1. bool_lia. cbn [obind].
    destruct (even_longest_at_ok (l + h - 1) ltac:(lia)) as (q & Hq & Hqle & Ho).
    replace (l + h - 1 + 1) with (l + h) in Ho |- * by lia.
    rewrite Ho. cbn [obind fst snd]. unfold csub. bool_lia.
    replace (2 * (l + h - 1) + 2) with (l + r) in Hq by lia.
    rewrite Hq. cbn [obind]. f_equal. apply Bool.eq_iff_eq_true.
    rewrite !Nat.leb_le. lia.
  - simpl_mod2. cbn [Nat.eqb].
    destruct (odd_longest_at_ok (l + h) ltac:(lia)) as (q & Hq & Hqle & Ho).
    rewrite Ho. cbn [obind fst snd]. unfold csub. bool_lia.
    replace (2 * (l + h) + 1) with (l + r) in Hq by lia.
    rewrite Hq. cbn [obind]. f_equal. apply Bool.eq_iff_eq_true.
    rewrite !Nat.leb_le. lia.
Qed.

(** ** The enumeration *)

(** An index that passes the filter of [ManacherIter::next] is a centre
    [len + 2k]: it has the parity of [len] and lies at or beyond it. *)
Lemma iter_pred_centre len ti :
  ti < length tab -> iter_pred tab len ti = true -> exists k, ti = len + 2 * k.
Proof.
  intros Hti Hp. unfold iter_pred in Hp.
  apply andb_true_iff in Hp as [Hle Hmod].
  apply Nat.leb_le in Hle. apply Nat.eqb_eq in Hmod.
  destruct (mod2_same _ _ Hmod) as [k1 Hk1].
  destruct (table_parity ti ltac:(lia)) as [k2 Hk2].
  pose proof (table_bound ti ltac:(lia)) as [B _].
  exists (k2 - k1). lia.
Qed.

Lemma next_loop_none fuel i len :
  i <= length tab -> length tab - i < fuel ->
  (forall j, i <= j -> j < length tab -> iter_pred tab len j = false) ->
  exists i', next_loop tab fuel i len = Some (None, i').
Proof.
  revert i. induction fuel as [|fuel IH]; intros i Hi Hf Hp; [lia|].
  cbn [next_loop]. destruct (i <? length tab) eqn:E.
  - apply Nat.ltb_lt in E. rewrite (nth_error_nth' tab 0 E). cbn [obind].
    specialize (Hp i ltac:(lia) E) as Hpi. unfold iter_pred in Hpi. rewrite Hpi.
    apply IH; [lia | lia | intros j Hj Hj'; apply Hp; lia].
  - eexists. reflexivity.
Qed.

Lemma next_loop_some fuel i len j :
  i <= j -> j < length tab -> length tab - i < fuel ->
  (forall j', i <= j' -> j' < j -> iter_pred tab len j' = false) ->
  iter_pred tab len j = true ->
  next_loop tab fuel i len = Some (Some (range_of len j), S j).
Proof.
  revert i. induction fuel as [|fuel IH]; intros i Hij Hj Hf Hp Hpj; [lia|].
  cbn [next_loop]. bool_lia. rewrite (nth_error_nth' tab (n := i) 0 ltac:(lia)).
  cbn [obind].
  destruct (Nat.eq_dec i j) as [->|Hne].
  - pose proof Hpj as Hpj'. unfold iter_pred in Hpj'. rewrite Hpj'.
    apply andb_true_iff in Hpj' as [Hle _]. apply Nat.leb_le in Hle.
    pose proof (table_bound j ltac:(lia)) as [B _].
    unfold csub, ti_to_si, csub. bool_lia. cbn [obind]. bool_lia. cbn [obind].
    unfold range_of. reflexivity.
  - specialize (Hp i ltac:(lia) ltac:(lia)) as Hpi. unfold iter_pred in Hpi.
    rewrite Hpi. apply IH; auto; try lia.
    intros j' Hj1 Hj2. apply Hp; lia.
Qed.

(** Draining a [ManacherIter] from cursor [i] reports one range per index
    that passes the filter, in index order. *)
Lemma collect_ok fuel i len :
  i <= length tab -> length tab - i < fuel ->
  collect tab fuel (mkIter i len) =
  Some (map (range_of len) (filter (iter_pred tab len) (seq i (length tab - i)))).
Proof.
  revert i. induction fuel as [|fuel IH]; intros i Hi Hf; [lia|].
  cbn [collect]. unfold next. cbn [it_i it_len].
  destruct (filter (iter_pred tab len) (seq i (length tab - i))) as [|j rest] eqn:F.
  - destruct (next_loop_none (S (length tab)) i len Hi ltac:(lia)) as [i' Hn].
    { intros j Hj Hj'. destruct (iter_pred tab len j) eqn:Pj; [|reflexivity].
      assert (In j (filter (iter_pred tab len) (seq i (length tab - i)))) as Hin.
      { apply filter_In. split; [apply in_seq; lia | exact Pj]. }
      rewrite F in Hin. destruct Hin. }
    rewrite Hn. reflexivity.
  - destruct (filter_seq_cons _ _ _ _ _ F) as (H1 & H2 & H3 & H4 & H5).
    rewrite (next_loop_some (S (length tab)) i len j) by (auto; lia).
    cbn [obind fst snd].
    rewrite IH by lia. cbn [obind map]. rewrite H5.
    replace (i + (length tab - i) - S j) with (length tab - S j) by lia.
    reflexivity.
Qed.

(** The ranges yielded by [iter_of_len(len)] are exactly the palindromic
    ranges of length [len]. *)
Lemma collect_pal len :
  exists rs, collect_all tab (iter_of_len tab len) = Some rs /\
    forall a b, In (a, b) rs <-> b = a + len /\ b <= length s /\ pal s a b.
Proof.
  unfold collect_all, iter_of_len.
  rewrite (collect_ok (S (length tab)) 0 len) by lia.
  eexists. split; [reflexivity|]. rewrite Nat.sub_0_r. intros a b.
  rewrite in_map_iff. split.
  - intros (ti & Hr & Hin). apply filter_In in Hin as [Hin Hp]. apply in_seq in Hin.
    destruct (iter_pred_centre len ti ltac:(lia) Hp) as [k ->].
    rewrite (range_of_centre len (len + 2 * k) k) in Hr by reflexivity.
    injection Hr as Ha Hb. subst a b.
    rewrite Hlen in Hin. unfold t_len in Hin.
    unfold iter_pred in Hp. apply andb_true_iff in Hp as [Hle _].
    apply Nat.leb_le in Hle.
    pose proof (table_bound (len + 2 * k) ltac:(unfold t_len; lia)) as [_ B].
    split; [lia|]. split; [lia|].
    apply (proj2 (table_pal k (k + len) ltac:(lia) ltac:(lia))).
    replace (k + (k + len)) with (len + 2 * k) by lia. lia.
  - intros (-> & Hb & P). exists (len + 2 * a). split.
    + apply range_of_centre. lia.
    + apply filter_In. split; [apply in_seq; rewrite Hlen; unfold t_len; lia|].
      apply (table_pal a (a + len)) in P; [|lia|lia].
      replace (a + (a + len)) with (len + 2 * a) in P by lia.
      replace (a + len - a) with len in P by lia.
      destruct (table_parity (len + 2 * a) ltac:(unfold t_len; lia)) as [m Hm].
      unfold iter_pred. apply andb_true_iff.
      split; [apply Nat.leb_le; lia|]. apply Nat.eqb_eq.
      apply (sum_even_mod _ _ (m - a)). lia.
Qed.

(** [is_palindrome] on a non-empty range whose centre lies in the table. *)
Lemma is_palindrome_gen l r : l < r -> l + r <= 2 * length s ->
  is_palindrome tab l r = Some (r - l <=? nth (l + r) tab 0).
Proof.
  intros Hlr Hr. unfold is_palindrome. bool_lia.
  destruct (parity (r - l)) as [h [E | E]]; rewrite E.
  - simpl_mod2. cbn [Nat.eqb]. unfold csub at 1. bool_lia. cbn [obind].
    destruct (even_longest_at_ok (l + h - 1) ltac:(lia)) as (q & Hq & Hqle & Ho).
    replace (l + h - 1 + 1) with (l + h) in Ho |- * by lia.
    rewrite Ho. cbn [obind fst snd]. unfold csub. bool_lia.
    replace (2 * (l + h - 1) + 2) with (l + r) in Hq by lia.
    rewrite Hq. cbn [obind]. f_equal. apply Bool.eq_iff_eq_true.
    rewrite !Nat.leb_le. lia.
  - simpl_mod2. cbn [Nat.eqb].
    destruct (odd_longest_at_ok (l + h) ltac:(lia)) as (q & Hq & Hqle & Ho).
    rewrite Ho. cbn [obind fst snd]. unfold csub. bool_lia.
    replace (2 * (l + h) + 1) with (l + r) in Hq by lia.
    rewrite Hq. cbn [obind]. f_equal. apply Bool.eq_iff_eq_true.
    rewrite !Nat.leb_le. lia.
Qed.

(** [is_palindrome] panics when the centre of the range is past the table. *)
Lemma is_palindrome_out l r : l < r -> 2 * length s < l + r ->
  is_palindrome tab l r = None.
Proof.
  intros Hlr Hr. unfold is_palindrome. bool_lia.
  destruct (parity (r - l)) as [h [E | E]]; rewrite E.
  - simpl_mod2. cbn [Nat.eqb]. unfold csub at 1. bool_lia. cbn [obind].
    unfold even_longest_at, si_to_ti. rewrite Nat.eqb_refl. cbn [negb].
    rewrite Hlen. unfold t_len. bool_lia. reflexivity.
  - simpl_mod2. cbn [Nat.eqb]. unfold odd_longest_at, si_to_ti.
    rewrite (proj2 (nth_error_None tab _)); [reflexivity|].
    rewrite Hlen. unfold t_len. lia.
Qed.

Lemma odd_longest_at_none si : length s <= si -> odd_longest_at tab si = None.
Proof.
  intro Hsi. unfold odd_longest_at, si_to_ti.
  rewrite (proj2 (nth_error_None tab _)); [reflexivity|].
  rewrite Hlen. unfold t_len. lia.
Qed.

Lemma even_longest_at_none si next :
  next <> si + 1 \/ length s < si + 1 -> even_longest_at tab si next = None.
Proof.
  intros [Hn | Hs]; unfold even_longest_at.
  - rewrite (proj2 (Nat.eqb_neq (si + 1) next)) by lia. reflexivity.
  - destruct (si + 1 =? next); [|reflexivity]. cbn [negb]. unfold si_to_ti.
    rewrite Hlen. unfold t_len. bool_lia. reflexivity.
Qed.

End Table.

Lemma expand_first_probe s fuel i delta d ps :
  0 < fuel -> i + delta < t_len s -> delta <= i ->
  expand s fuel i delta = Some (d, ps) -> ps <> [].
Proof.
  intros Hf Hb Hd He. destruct fuel as [|fuel]; [lia|].
  cbn [expand] in He. unfold csub in He.
  rewrite (proj2 (Nat.ltb_lt _ _) Hb), (proj2 (Nat.leb_le _ _) Hd) in He.
  cbn [obind] in He. rewrite is_equal_tchar in He by lia. cbn [obind] in He.
  destruct (mv_eqb _ _).
  - destruct (expand s fuel i (S delta)) as [[d' ps']|]; cbn [obind] in He;
      [|discriminate]. injection He as _ <-. discriminate.
  - injection He as _ <-. discriminate.
Qed.

(** ** Reversal *)

Lemma tchar_rev s k :
  k <= 2 * length s -> tchar (rev s) k = tchar s (2 * length s - k).
Proof.
  intro Hk. destruct (parity k) as [m [-> | ->]].
  - replace (2 * length s - 2 * m) with (2 * (length s - m)) by lia.
    rewrite !tchar_even. reflexivity.
  - replace (2 * length s - (2 * m + 1)) with (2 * (length s - S m) + 1) by lia.
    rewrite !tchar_odd, nth_error_rev. bool_lia. reflexivity.
Qed.

Lemma cert_rev s i d :
  i < t_len s -> (cert (rev s) i d <-> cert s (2 * length s - i) d).
Proof.
  intro Hi. unfold cert, t_len in *. rewrite length_rev.
  split; intros (H1 & H2 & H3); (split; [lia|]); (split; [lia|]); intros k Hk.
  - specialize (H3 k Hk). rewrite !tchar_rev in H3 by lia.
    replace (2 * length s - (i - k)) with (2 * length s - i + k) in H3 by lia.
    replace (2 * length s - (i + k)) with (2 * length s - i - k) in H3 by lia.
    symmetry. exact H3.
  - specialize (H3 k Hk). rewrite !tchar_rev by lia.
    replace (2 * length s - (i - k)) with (2 * length s - i + k) by lia.
    replace (2 * length s - (i + k)) with (2 * length s - i - k) by lia.
    symmetry. exact H3.
Qed.

Lemma is_rad_rev s i d :
  i < t_len s -> (is_rad (rev s) i d <-> is_rad s (2 * length s - i) d).
Proof. intro Hi. unfold is_rad. rewrite !cert_rev by exact Hi. reflexivity. Qed.

(** ** The end of an enumeration *)

Lemma next_loop_end tab fuel i len i' :
  next_loop tab fuel i len = Some (None, i') -> length tab <= i'.
Proof.
  revert i. induction fuel as [|fuel IH]; intros i Hn; cbn [next_loop] in Hn;
    [discriminate|].
  destruct (i <? length tab) eqn:E.
  - destruct (nth_error tab i) as [rad|]; cbn [obind] in Hn; [|discriminate].
    destruct ((len <=? rad) && (rad mod 2 =? len mod 2)).
    + destruct (csub (i + 1) len); cbn [obind] in Hn; [|discriminate].
      destruct (ti_to_si _); cbn [obind] in Hn; discriminate.
    + exact (IH _ Hn).
  - injection Hn as <-. apply Nat.ltb_ge in E. exact E.
Qed.

End Proofs.

Section Claims.

Context {T : Type} `{EqDec T}.

(** C1: for [0 <= l <= r <= len(s)], [is_palindrome(l, r)] on the index built
    from [s] returns what the brute-force [naive_palindrome] returns, i.e.
    true exactly when [s[l+d] = s[r-1-d]] for every [d] with
    [l+d < r-1-d]; and it is true whenever [l >= r]. *)
Theorem is_palindrome_correct (s : list T) (l r : nat)
  (Hlr : l <= r) (Hr : r <= length s) :
  exists tab, manacher_new s = Some tab /\
    is_palindrome tab l r = naive_palindrome s l r /\
    (is_palindrome tab l r = Some true <-> two_pointer s l r) /\
    (forall l' r', r' <= l' -> is_palindrome tab l' r' = Some true).
Proof.
  destruct (manacher_new_ok s) as (tab & Hnew & Hlen & Htab).
  exists tab. split; [exact Hnew|].
  assert (Hrr : forall l' r', r' <= l' -> is_palindrome tab l' r' = Some true).
  { intros l' r' Hle. unfold is_palindrome. bool_lia. reflexivity. }
  destruct (naive_palindrome_ok s l r Hr) as (b & Hb & Hbiff).
  assert (Hiff : is_palindrome tab l r = Some true <-> two_pointer s l r).
  { destruct (Nat.eq_dec l r) as [<-|Hne].
    - rewrite Hrr by lia. split; [|reflexivity]. intros _ d Hd. lia.
    - rewrite (is_palindrome_ok s tab Htab Hlen l r) by lia.
      rewrite <- pal_two_pointer by lia.
      rewrite (table_pal s tab Htab l r) by lia.
      rewrite <- Nat.leb_le. split; [congruence | intros ->; reflexivity]. }
  split; [|split; [exact Hiff | exact Hrr]].
  rewrite Hb.
  destruct (Nat.eq_dec l r) as [<-|Hne].
  - rewrite Hrr by lia. f_equal. symmetry. apply Hbiff. intros d Hd. lia.
  - rewrite (is_palindrome_ok s tab Htab Hlen l r) by lia. f_equal.
    apply Bool.eq_iff_eq_true. rewrite Hbiff, <- Hiff.
    rewrite (is_palindrome_ok s tab Htab Hlen l r) by lia.
    split; [intros ->; reflexivity | congruence].
Qed.

(** C2: [max_palindrome_len()] returns the largest entry of the radius
    table; that number is the length of a longest substring of [s] equal to
    its own reverse; for the empty sequence it is 0. *)
Theorem max_palindrome_len_correct (s : list T) :
  exists tab m, manacher_new s = Some tab /\ max_palindrome_len tab = Some m /\
    In m tab /\ (forall x, In x tab -> x <= m) /\
    (exists a, a + m <= length s /\ substring s a m = rev (substring s a m)) /\
    (forall a len, a + len <= length s ->
       substring s a len = rev (substring s a len) -> len <= m) /\
    (s = [] -> m = 0).
Proof.
  destruct (manacher_new_ok s) as (tab & Hnew & Hlen & Htab).
  destruct (max_opt_spec tab) as (m & Hm & Hin & Hub).
  { intros ->. unfold t_len in Hlen. cbn in Hlen. lia. }
  exists tab, m. split; [exact Hnew|]. split; [exact Hm|].
  split; [exact Hin|]. split; [exact Hub|].
  destruct (In_nth _ _ 0 Hin) as (j & Hj & Hjm). rewrite Hlen in Hj.
  destruct (table_window s tab Htab j Hj) as (a & b & Hab & Hba & Hle & Hb & P).
  split; [|split].
  - exists a. rewrite Hjm in Hba. split; [lia|].
    apply substring_rev_pal; [lia|]. replace (a + m) with b by lia. exact P.
  - intros a' len Ha' Hrev. apply substring_rev_pal in Hrev; [|exact Ha'].
    apply (table_pal s tab Htab a' (a' + len)) in Hrev; [|lia|lia].
    transitivity (nth (a' + (a' + len)) tab 0); [lia|].
    apply Hub. apply nth_In. rewrite Hlen. unfold t_len. lia.
  - intros ->. cbn in Hb. lia.
Qed.

(** C5: the radius table built from a sequence of length [n] has length
    [2n+1], holds 0 at index 0, and every entry lies in [[0, n]]. The table
    is the [Manacher] value itself; every query below takes it as an
    argument and none returns a new one, so it is never modified. *)
Theorem radius_table_invariants (s : list T) :
  exists tab, manacher_new s = Some tab /\
    length tab = 2 * length s + 1 /\ nth_error tab 0 = Some 0 /\
    (forall x, In x tab -> x <= length s).
Proof.
  destruct (manacher_new_ok s) as (tab & Hnew & Hlen & Htab).
  exists tab. split; [exact Hnew|]. unfold t_len in Hlen.
  split; [lia|]. split.
  - rewrite (nth_error_nth' tab (n := 0) 0) by lia. f_equal.
    pose proof (table_bound s tab Htab 0 ltac:(unfold t_len; lia)). lia.
  - intros x Hx. destruct (In_nth _ _ 0 Hx) as (j & Hj & <-).
    pose proof (table_bound s tab Htab j ltac:(unfold t_len; lia)). lia.
Qed.

(** C6: [odd_longest_at(si)] returns [[si-rad, si+rad+1)] with
    [rad = radius[2si+1] / 2], and [even_longest_at(si, si+1)] returns
    [[si+1-rad, si+1+rad)] with [rad = radius[2si+2] / 2]; each is the
    largest palindromic range of [s] around its centre. *)
Theorem longest_at_correct (s : list T) :
  exists tab, manacher_new s = Some tab /\
  (forall si, si < length s ->
     let rad := nth (2 * si + 1) tab 0 / 2 in
     odd_longest_at tab si = Some (si - rad, si + rad + 1) /\
     rad <= si /\ si + rad + 1 <= length s /\ pal s (si - rad) (si + rad + 1) /\
     (forall k, rad < k -> k <= si -> si + k + 1 <= length s ->
        ~ pal s (si - k) (si + k + 1))) /\
  (forall si, si + 1 < length s ->
     let rad := nth (2 * si + 2) tab 0 / 2 in
     even_longest_at tab si (si + 1) = Some (si + 1 - rad, si + 1 + rad) /\
     rad <= si + 1 /\ si + 1 + rad <= length s /\
     pal s (si + 1 - rad) (si + 1 + rad) /\
     (forall k, rad < k -> k <= si + 1 -> si + 1 + k <= length s ->
        ~ pal s (si + 1 - k) (si + 1 + k))).
Proof.
  destruct (manacher_new_ok s) as (tab & Hnew & Hlen & Htab).
  exists tab. split; [exact Hnew|]. split.
  - intros si Hsi. cbv zeta.
    destruct (odd_longest_at_ok s tab Htab Hlen si Hsi) as (q & Hq & Hqle & Ho).
    pose proof (table_bound s tab Htab (2 * si + 1) ltac:(unfold t_len; lia)) as [_ B].
    rewrite Hq. simpl_mod2.
    split; [exact Ho|]. split; [exact Hqle|]. split; [lia|].
    assert (Hc : forall k, k <= si -> si + k + 1 <= length s ->
              (pal s (si - k) (si + k + 1) <-> 2 * k + 1 <= 2 * q + 1)).
    { intros k Hk1 Hk2. rewrite (table_pal s tab Htab) by lia.
      replace (si - k + (si + k + 1)) with (2 * si + 1) by lia.
      rewrite Hq. lia. }
    split.
    + apply Hc; lia.
    + intros k Hk Hk1 Hk2 P. apply (Hc k Hk1 Hk2) in P. lia.
  - intros si Hsi. cbv zeta.
    destruct (even_longest_at_ok s tab Htab Hlen si ltac:(lia)) as (q & Hq & Hqle & Ho).
    pose proof (table_bound s tab Htab (2 * si + 2) ltac:(unfold t_len; lia)) as [_ B].
    rewrite Hq. simpl_mod2.
    split; [exact Ho|]. split; [exact Hqle|]. split; [lia|].
    assert (Hc : forall k, k <= si + 1 -> si + 1 + k <= length s ->
              (pal s (si + 1 - k) (si + 1 + k) <-> 2 * k <= 2 * q)).
    { intros k Hk1 Hk2. rewrite (table_pal s tab Htab) by lia.
      replace (si + 1 - k + (si + 1 + k)) with (2 * si + 2) by lia.
      rewrite Hq. lia. }
    split.
    + apply Hc; lia.
    + intros k Hk Hk1 Hk2 P. apply (Hc k Hk1 Hk2) in P. lia.
Qed.

(** C8: [Manacher::new] returns normally on every finite sequence, the empty
    one included: no [assert!] fires, every index into the partial table and
    into the transformed view is in bounds, no [usize] subtraction
    underflows, and every loop ends (within its fuel bound). *)
Theorem manacher_new_total (s : list T) :
  exists tab, manacher_new s = Some tab.
Proof.
  destruct (manacher_new_ok s) as (tab & Hnew & _). exists tab. exact Hnew.
Qed.

(** C10: on a non-empty sequence of length [n], [even_longest_at(n-1, n)]
    passes both assertions and returns the empty range [[n, n)]. *)
Theorem even_longest_at_last (s : list T) (Hn : 1 <= length s) :
  exists tab, manacher_new s = Some tab /\
    nth (2 * length s) tab 0 = 0 /\
    even_longest_at tab (length s - 1) (length s) = Some (length s, length s).
Proof.
  destruct (manacher_new_ok s) as (tab & Hnew & Hlen & Htab).
  exists tab. split; [exact Hnew|].
  destruct (even_longest_at_ok s tab Htab Hlen (length s - 1) ltac:(lia))
    as (q & Hq & _ & Ho).
  pose proof (table_bound s tab Htab (2 * length s) ltac:(unfold t_len; lia)) as [_ B].
  replace (2 * (length s - 1) + 2) with (2 * length s) in Hq by lia.
  replace (length s - 1 + 1) with (length s) in Ho by lia.
  split; [lia|]. rewrite Ho. f_equal. f_equal; lia.
Qed.

(** C7: [iter_of_len(len)] yields, in increasing transformed index, one
    range of length [len] centred at each transformed position [ti] with
    [radius[ti] >= len] and [radius[ti]] of the parity of [len]; the start
    indices never decrease, no range repeats, and [iter_of_max()] yields
    what [iter_of_len(max_palindrome_len())] yields. *)
Theorem iter_of_len_correct (s : list T) (len : nat) :
  exists tab, manacher_new s = Some tab /\
  let F := filter (iter_pred tab len) (seq 0 (length tab)) in
  collect_all tab (iter_of_len tab len) = Some (map (range_of len) F) /\
  (forall ti, In ti F <->
     ti < length tab /\ len <= nth ti tab 0 /\ nth ti tab 0 mod 2 = len mod 2) /\
  StronglySorted lt F /\
  (forall ti, In ti F ->
     snd (range_of len ti) = fst (range_of len ti) + len /\
     fst (range_of len ti) + snd (range_of len ti) = ti) /\
  Sorted le (map fst (map (range_of len) F)) /\
  NoDup (map (range_of len) F) /\
  obind (iter_of_max tab) (collect_all tab) =
    obind (max_palindrome_len tab) (fun m => collect_all tab (iter_of_len tab m)).
Proof.
  destruct (manacher_new_ok s) as (tab & Hnew & Hlen & Htab).
  exists tab. split; [exact Hnew|]. cbv zeta.
  assert (HF : forall ti, In ti (filter (iter_pred tab len) (seq 0 (length tab))) ->
             ti < length tab /\ exists k, ti = len + 2 * k).
  { intros ti Hin. apply filter_In in Hin as [Hin Hp]. apply in_seq in Hin.
    split; [lia|]. apply (iter_pred_centre s tab Htab Hlen len ti); [lia | exact Hp]. }
  split.
  { unfold collect_all, iter_of_len.
    rewrite (collect_ok s tab Htab Hlen) by lia. rewrite Nat.sub_0_r. reflexivity. }
  split.
  { intro ti. rewrite filter_In, in_seq. unfold iter_pred.
    rewrite andb_true_iff, Nat.leb_le, Nat.eqb_eq. lia. }
  split; [apply filter_seq_sorted|].
  split.
  { intros ti Hin. destruct (HF ti Hin) as [_ [k ->]].
    rewrite (range_of_centre len (len + 2 * k) k) by reflexivity. cbn. lia. }
  split.
  { rewrite map_map. apply sorted_map_mono; [|apply filter_seq_sorted].
    intros x y Hxy. unfold range_of. cbn [fst].
    apply Nat.Div0.div_le_mono; lia. }
  split.
  { apply NoDup_map_NoDup_ForallPairs.
    - intros x y Hx Hy E.
      destruct (HF x Hx) as [_ [kx ->]]. destruct (HF y Hy) as [_ [ky ->]].
      rewrite (range_of_centre len _ kx), (range_of_centre len _ ky) in E by reflexivity.
      injection E as E. lia.
    - apply NoDup_filter. apply seq_NoDup. }
  unfold iter_of_max, iter_of_len. destruct (max_palindrome_len tab); reflexivity.
Qed.

(** C9: [iter_of_len(0)] yields exactly the empty ranges [[0,0), [1,1), ...,
    [n,n)] in order: separator positions have even radius and character
    positions odd radius. *)
Theorem iter_of_len_zero (s : list T) :
  exists tab, manacher_new s = Some tab /\
    collect_all tab (iter_of_len tab 0) =
      Some (map (fun k => (k, k)) (seq 0 (length s + 1))) /\
    (forall ti, ti < length tab -> nth ti tab 0 mod 2 = ti mod 2).
Proof.
  destruct (manacher_new_ok s) as (tab & Hnew & Hlen & Htab).
  exists tab. split; [exact Hnew|].
  assert (Hpar : forall ti, ti < length tab -> nth ti tab 0 mod 2 = ti mod 2).
  { intros ti Hti. destruct (table_parity s tab Htab ti ltac:(lia)) as [m Hm].
    symmetry. apply (sum_even_mod _ _ m). exact Hm. }
  split; [|exact Hpar].
  unfold collect_all, iter_of_len.
  rewrite (collect_ok s tab Htab Hlen) by lia. rewrite Nat.sub_0_r. f_equal.
  rewrite (filter_ext_in _ (fun i => i mod 2 =? 0)).
  - rewrite Hlen. unfold t_len. replace (length s * 2 + 1) with (2 * length s + 1) by lia.
    change (seq 0 (2 * length s + 1)) with (seq (2 * 0) (2 * length s + 1)).
    rewrite even_positions. rewrite Nat.add_1_r. reflexivity.
  - intros ti Hin. apply in_seq in Hin. unfold iter_pred.
    rewrite (Hpar ti) by lia. reflexivity.
Qed.

(** C3 (as the code behaves): on the empty sequence the table is [[0]],
    [max_palindrome_len()] is 0, and [iter_of_max()] yields exactly one
    item, the empty range [[0, 0)], then ends. *)
Theorem empty_sequence_queries :
  manacher_new (@nil T) = Some [0] /\
  max_palindrome_len [0] = Some 0 /\
  obind (iter_of_max [0]) (collect_all [0]) = Some [(0, 0)].
Proof. split; [|split]; reflexivity. Qed.

(** The seed of the radius pass (see C4): at every iteration [i], the
    expansion starts at offset 1 when [i >= right]; otherwise it starts at
    [min(radius[2*center - i], right - i)] itself, an offset whose pair the
    mirror property already certifies equal, and the loop then probes
    consecutive offsets upward from there, so the first probe re-checks one
    certified pair, which always compares equal. *)
Theorem expansion_seed (s : list T) (k : nat) (st : state)
  (Hk : 1 + k < t_len s) (Hf : for_loop s k 1 init_state = Some st) :
  (right st <= 1 + k -> seed st (1 + k) = Some 1) /\
  (1 + k < right st ->
     seed st (1 + k) =
       Some (Nat.min (nth (2 * center st - (1 + k)) (ans st) 0) (right st - (1 + k))) /\
     cert s (1 + k)
       (Nat.min (nth (2 * center st - (1 + k)) (ans st) 0) (right st - (1 + k)))) /\
  (exists d0 d ps, seed st (1 + k) = Some d0 /\
     expand s (t_len s) (1 + k) d0 = Some (d, ps) /\
     ps = seq d0 (length ps) /\ (1 + k < right st -> ps <> [])).
Proof.
  destruct (for_loop_ok s k 1 init_state (inv_init s) ltac:(lia) ltac:(lia))
    as (st' & Hf' & Hinv).
  rewrite Hf in Hf'. injection Hf' as <-.
  destruct (seed_ok s st (1 + k) Hinv Hk) as (d0 & Hs & Hc0 & Hout & Hin).
  split; [intro Hle; rewrite Hs; f_equal; auto|].
  split; [intro Hlt; destruct (Hin Hlt) as [-> C]; split; [exact Hs | exact C]|].
  destruct (expand_ok s (t_len s) (1 + k) d0 Hk ltac:(lia) Hc0)
    as (d & ps & He & _ & _ & _ & Hps).
  exists d0, d, ps. split; [exact Hs|]. split; [exact He|]. split; [exact Hps|].
  intro Hlt. destruct (Hin Hlt) as [_ (C1 & C2 & _)].
  apply (expand_first_probe s (t_len s) (1 + k) d0 d ps); auto.
  unfold t_len. lia.
Qed.

End Claims.

Lemma is_palindrome_correct_witness :
  exists tab, manacher_new bananas = Some tab /\
    is_palindrome tab 1 6 = naive_palindrome bananas 1 6 /\
    (is_palindrome tab 1 6 = Some true <-> two_pointer bananas 1 6) /\
    (forall l' r', r' <= l' -> is_palindrome tab l' r' = Some true).
Proof. apply (is_palindrome_correct bananas 1 6); vm_compute; lia. Defined.

(** C3: on the empty sequence [iter_of_max()] does yield an element. *)
Lemma empty_iter_of_max_counterexample :
  obind (manacher_new (@nil nat))
    (fun tab => obind (iter_of_max tab) (collect_all tab)) <> Some [].
Proof. vm_compute. discriminate. Qed.

(** C4: on "aba" ([[0;1;0]]), at transformed index 5 (after four
    iterations: [ans = [0;1;0;3;0]], [center = 3], [right = 6]) the
    expansion is seeded at [min(radius[1], 6 - 5) = 1], not at 2, and the
    loop probes offset 1, whose pair the mirror property already certifies. *)
Lemma expansion_seed_counterexample :
  exists st, for_loop [0;1;0] 4 1 init_state = Some st /\ 5 < right st /\
    seed st 5 = Some (Nat.min (nth (2 * center st - 5) (ans st) 0) (right st - 5)) /\
    seed st 5 <> Some (Nat.min (nth (2 * center st - 5) (ans st) 0) (right st - 5) + 1) /\
    expand [0;1;0] (t_len [0;1;0]) 5 1 = Some (2, [1]) /\
    cert [0;1;0] 5 (Nat.min (nth (2 * center st - 5) (ans st) 0) (right st - 5)).
Proof.
  exists (mkState [0;1;0;3;0] 3 6).
  split; [vm_compute; reflexivity|]. split; [cbn; lia|].
  split; [vm_compute; reflexivity|]. split; [vm_compute; discriminate|].
  split; [vm_compute; reflexivity|].
  cbn -[t_len]. unfold cert. split; [lia|]. split; [vm_compute; lia|].
  intros k Hk. destruct k as [|[|k]]; [reflexivity | reflexivity | lia].
Qed.

Lemma iter_of_len_zero_example :
  obind (manacher_new [7;7;7]) (fun tab => collect_all tab (iter_of_len tab 0))
  = Some [(0,0); (1,1); (2,2); (3,3)].
Proof. vm_compute. reflexivity. Qed.

Lemma even_longest_at_last_witness :
  exists tab, manacher_new bananas = Some tab /\
    nth (2 * length bananas) tab 0 = 0 /\
    even_longest_at tab (length bananas - 1) (length bananas) =
      Some (length bananas, length bananas).
Proof. apply (even_longest_at_last bananas). vm_compute. lia. Defined.

Lemma expansion_seed_witness :
  (right (mkState [0;1;0;3;0] 3 6) <= 1 + 4 ->
     seed (mkState [0;1;0;3;0] 3 6) (1 + 4) = Some 1) /\
  (1 + 4 < right (mkState [0;1;0;3;0] 3 6) ->
     seed (mkState [0;1;0;3;0] 3 6) (1 + 4) =
       Some (Nat.min (nth (2 * 3 - (1 + 4)) [0;1;0;3;0] 0) (6 - (1 + 4))) /\
     cert [0;1;0] (1 + 4) (Nat.min (nth (2 * 3 - (1 + 4)) [0;1;0;3;0] 0) (6 - (1 + 4)))) /\
  (exists d0 d ps, seed (mkState [0;1;0;3;0] 3 6) (1 + 4) = Some d0 /\
     expand [0;1;0] (t_len [0;1;0]) (1 + 4) d0 = Some (d, ps) /\
     ps = seq d0 (length ps) /\ (1 + 4 < right (mkState [0;1;0;3;0] 3 6) -> ps <> [])).
Proof. apply (expansion_seed [0;1;0] 4); vm_compute; first [lia | reflexivity]. Defined.

(** * Further properties of the module *)

Section Extras.

Context {T : Type} `{EqDec T}.

(** X1: [Manacher::new] runs in linear time: on a sequence of length [n] it
    calls [t.is_equal] at most [6n] times in all. *)
Theorem manacher_new_comparisons (s : list T) :
  exists p, manacher_new_probes s = Some p /\ p <= 6 * length s.
Proof.
  destruct (probes_total_ok s (t_len s - 1) 1 init_state (inv_init s)
              ltac:(lia) ltac:(unfold t_len; lia)) as (p & st & Hp & _ & Hinv & Hb).
  exists p. split; [exact Hp|].
  destruct Hinv as (_ & Hrad & Hc & Hr).
  destruct (Hrad (center st) Hc) as ((_ & H2 & _) & _).
  cbn [right init_state] in Hb. unfold t_len in *. lia.
Qed.

(** X2: [iter_of_len(len)] yields exactly the ranges [[a, a + len)] of [s]
    whose substring reads the same reversed. *)
Theorem iter_of_len_palindromes (s : list T) (len : nat) :
  exists tab rs, manacher_new s = Some tab /\
    collect_all tab (iter_of_len tab len) = Some rs /\
    forall a b, In (a, b) rs <->
      b = a + len /\ b <= length s /\ substring s a len = rev (substring s a len).
Proof.
  destruct (manacher_new_ok s) as (tab & Hnew & Hlen & Htab).
  destruct (collect_pal s tab Htab Hlen len) as (rs & Hc & Hrs).
  exists tab, rs. split; [exact Hnew|]. split; [exact Hc|].
  intros a b. rewrite Hrs. split.
  - intros (-> & Hb & P). split; [reflexivity|]. split; [exact Hb|].
    apply substring_rev_pal; assumption.
  - intros (-> & Hb & P). split; [reflexivity|]. split; [exact Hb|].
    apply substring_rev_pal; assumption.
Qed.

(** X3: [iter_of_max()] yields at least one range, and exactly the ranges
    of [s] of the greatest length whose substring reads the same reversed. *)
Theorem iter_of_max_longest (s : list T) :
  exists tab m rs, manacher_new s = Some tab /\
    obind (iter_of_max tab) (collect_all tab) = Some rs /\ rs <> [] /\
    (forall a b, In (a, b) rs <->
       b = a + m /\ b <= length s /\ substring s a m = rev (substring s a m)) /\
    (forall a len, a + len <= length s ->
       substring s a len = rev (substring s a len) -> len <= m).
Proof.
  destruct (manacher_new_ok s) as (tab & Hnew & Hlen & Htab).
  destruct (max_opt_spec tab) as (m & Hm & Hin & Hub).
  { intros ->. unfold t_len in Hlen. cbn in Hlen. lia. }
  destruct (collect_pal s tab Htab Hlen m) as (rs & Hc & Hrs).
  exists tab, m, rs. split; [exact Hnew|].
  split; [unfold iter_of_max, max_palindrome_len; rewrite Hm; exact Hc|].
  destruct (In_nth _ _ 0 Hin) as (j & Hj & Hjm). rewrite Hlen in Hj.
  destruct (table_window s tab Htab j Hj) as (a & b & Hab & Hba & Hle & Hb & P).
  split.
  { intro E. assert (In (a, b) rs) as Hab'; [|rewrite E in Hab'; destruct Hab'].
    apply Hrs. split; [lia|]. split; [exact Hb|]. exact P. }
  split.
  - intros a' b'. rewrite Hrs. split.
    + intros (-> & Hb' & P'). split; [reflexivity|]. split; [exact Hb'|].
      apply substring_rev_pal; assumption.
    + intros (-> & Hb' & P'). split; [reflexivity|]. split; [exact Hb'|].
      apply substring_rev_pal; assumption.
  - intros a' len Ha' Hrev. apply substring_rev_pal in Hrev; [|exact Ha'].
    apply (table_pal s tab Htab a' (a' + len)) in Hrev; [|lia|lia].
    transitivity (nth (a' + (a' + len)) tab 0); [lia|].
    apply Hub. apply nth_In. rewrite Hlen. unfold t_len. lia.
Qed.

(** X4: [is_palindrome(l, r)] panics exactly when [l < r] and [l + r > 2n]
    (the centre of the range lies past the table); on a non-empty range
    that ends past [n] and does not panic it returns [false]. *)
Theorem is_palindrome_out_of_range (s : list T) :
  exists tab, manacher_new s = Some tab /\
    (forall l r, is_palindrome tab l r = None <-> l < r /\ 2 * length s < l + r) /\
    (forall l r, l < r -> length s < r -> l + r <= 2 * length s ->
       is_palindrome tab l r = Some false).
Proof.
  destruct (manacher_new_ok s) as (tab & Hnew & Hlen & Htab).
  exists tab. split; [exact Hnew|]. split.
  - intros l r. destruct (Nat.le_gt_cases r l) as [Hrl | Hlr].
    + unfold is_palindrome. bool_lia. split; [discriminate | lia].
    + destruct (Nat.le_gt_cases (l + r) (2 * length s)) as [Hc | Hc].
      * rewrite (is_palindrome_gen s tab Htab Hlen l r Hlr Hc).
        split; [discriminate | lia].
      * rewrite (is_palindrome_out s tab Hlen l r Hlr Hc).
        split; [intros _; lia | reflexivity].
  - intros l r Hlr Hr Hc.
    rewrite (is_palindrome_gen s tab Htab Hlen l r Hlr Hc).
    pose proof (table_bound s tab Htab (l + r) ltac:(unfold t_len; lia)) as [_ B].
    f_equal. apply Nat.leb_gt. lia.
Qed.

(** X5: [odd_longest_at(si)] panics exactly when [si >= n]. *)
Theorem odd_longest_at_panics (s : list T) :
  exists tab, manacher_new s = Some tab /\
    forall si, odd_longest_at tab si = None <-> length s <= si.
Proof.
  destruct (manacher_new_ok s) as (tab & Hnew & Hlen & Htab).
  exists tab. split; [exact Hnew|]. intro si.
  destruct (Nat.lt_ge_cases si (length s)) as [Hsi | Hsi].
  - destruct (odd_longest_at_ok s tab Htab Hlen si Hsi) as (q & _ & _ & ->).
    split; [discriminate | lia].
  - rewrite (odd_longest_at_none s tab Hlen si Hsi). split; [intros _; exact Hsi | reflexivity].
Qed.

(** X6: [even_longest_at(si, next_si)] panics exactly when
    [next_si <> si + 1] or [si + 1 > n]. *)
Theorem even_longest_at_panics (s : list T) :
  exists tab, manacher_new s = Some tab /\
    forall si next_si, even_longest_at tab si next_si = None <->
      next_si <> si + 1 \/ length s < si + 1.
Proof.
  destruct (manacher_new_ok s) as (tab & Hnew & Hlen & Htab).
  exists tab. split; [exact Hnew|]. intros si next_si.
  destruct (Nat.eq_dec next_si (si + 1)) as [-> | Hn];
    [destruct (Nat.le_gt_cases (si + 1) (length s)) as [Hs | Hs]|].
  - destruct (even_longest_at_ok s tab Htab Hlen si Hs) as (q & _ & _ & ->).
    split; [discriminate | lia].
  - rewrite (even_longest_at_none s tab Hlen si (si + 1) (or_intror Hs)).
    split; [intros _; right; exact Hs | reflexivity].
  - rewrite (even_longest_at_none s tab Hlen si next_si (or_introl Hn)).
    split; [intros _; left; exact Hn | reflexivity].
Qed.

(** X7: [ManacherIter] is fused: once [next] has returned [None], every
    further call returns [None] again and leaves the iterator unchanged. *)
Theorem manacher_iter_fused (tab : list nat) (it it' : ManacherIter)
  (Hnone : next tab it = Some (None, it')) :
  next tab it' = Some (None, it').
Proof.
  unfold next in *.
  destruct (next_loop tab (S (length tab)) (it_i it) (it_len it)) as [[o i']|] eqn:E;
    cbn [obind fst snd] in Hnone; [|discriminate].
  injection Hnone as Ho Hit. subst o it'. cbn [it_i it_len].
  apply next_loop_end in E. cbn [next_loop].
  rewrite (proj2 (Nat.ltb_ge _ _) E). reflexivity.
Qed.

(** X8: the radius table of the reversed sequence is the reversed radius
    table. *)
Theorem manacher_new_rev (s : list T) :
  exists tab, manacher_new s = Some tab /\ manacher_new (rev s) = Some (rev tab).
Proof.
  destruct (manacher_new_ok s) as (tab & Hnew & Hlen & Htab).
  destruct (manacher_new_ok (rev s)) as (tab' & Hnew' & Hlen' & Htab').
  exists tab. split; [exact Hnew|]. rewrite Hnew'. f_equal.
  unfold t_len in Hlen, Hlen', Htab'. rewrite length_rev in Hlen', Htab'.
  apply nth_ext with (d := 0) (d' := 0).
  { rewrite length_rev. lia. }
  intros j Hj. rewrite rev_nth by lia.
  apply (is_rad_unique s (2 * length s - j)).
  - apply (proj1 (is_rad_rev s j _ ltac:(unfold t_len; lia))). apply Htab'. lia.
  - replace (length tab - S j) with (2 * length s - j) by lia.
    apply Htab. unfold t_len. lia.
Qed.


(** X10: [ManacherString::get(ti)] and [is_equal(ti, tj)] panic exactly on
    an index [>= 2n + 1]: the slice index [s[ti_to_si(ti)]] inside [get]
    never fails. *)
Theorem get_is_equal_bounds (s : list T) :
  (forall ti, get s ti = None <-> t_len s <= ti) /\
  (forall ti tj, is_equal s ti tj = None <-> t_len s <= ti \/ t_len s <= tj).
Proof.
  assert (G : forall ti, get s ti = None <-> t_len s <= ti).
  { intro ti. destruct (Nat.lt_ge_cases ti (t_len s)) as [H1 | H1].
    - rewrite (get_tchar s ti H1). split; [discriminate | lia].
    - unfold get. rewrite (proj2 (Nat.ltb_ge _ _) H1).
      split; [intros _; exact H1 | reflexivity]. }
  split; [exact G|]. intros ti tj.
  destruct (Nat.lt_ge_cases ti (t_len s)) as [H1 | H1];
    [destruct (Nat.lt_ge_cases tj (t_len s)) as [H2 | H2]|].
  - rewrite (is_equal_tchar s ti tj H1 H2). split; [discriminate | lia].
  - unfold is_equal. rewrite (get_tchar s ti H1). cbn [obind].
    rewrite (proj2 (G tj) H2). split; [intros _; right; exact H2 | reflexivity].
  - unfold is_equal. rewrite (proj2 (G ti) H1).
    split; [intros _; left; exact H1 | reflexivity].
Qed.

End Extras.


Lemma manacher_iter_fused_witness :
  next [0] (mkIter 0 1) = Some (None, mkIter 1 1) /\
  next [0] (mkIter 1 1) = Some (None, mkIter 1 1).
Proof.
  split; [reflexivity|].
  apply (manacher_iter_fused [0] (mkIter 0 1)). reflexivity.
Defined.
